(** * dag-utils.js: geometry of area-proportional DAG nodes and padded edges

    Shallow embedding of [src/js/dag-utils.js].

    - JavaScript Numbers are read as real numbers ([R]): [Math.sqrt],
      [Math.asin] and [Math.PI] become [sqrt], [asin] and [PI], and
      arithmetic is exact.  Rounding is not part of this reading, and
      neither is a division by zero, which the source answers with an
      infinity or NaN: what is proved of a quotient is proved where the
      divisor is not zero.
    - The geometry of edges is also given on IEEE binary64 numbers
      (module [F64]), where it can be evaluated, to observe what the
      source returns on concrete inputs, degenerate ones included.
    - [F64] also gives [areaFraction] and [areaToHeight] on binary64
      numbers.  ECMAScript leaves the value of [Math.asin] to the
      implementation except at NaN, outside [-1, 1] and at the zeros,
      so [F64.asin] is partial and the two functions return an
      [option]: [None] says that the run needs a value of [Math.asin]
      that this development does not fix, never that the source fails.
      What is stated of the real-number reading is stated of exact
      arithmetic; where binary64 rounding, overflow or underflow makes
      the source differ, the difference is shown in [F64].
    - The d3 selection API is read as a tree of elements: [append]
      adds a child at the end and every [attr] call records one
      (name, value) pair, in call order. *)

From Stdlib Require Import Reals Machin Lra Lia List String Bool.
From Stdlib Require Import ZArith.
From Stdlib Require Floats.Floats.
Import ListNotations.
Import (notations) PrimFloat.

Set Warnings "-register-all".

Open Scope string_scope.
Open Scope list_scope.
Open Scope R_scope.

(** ** The drawing surface *)

Inductive attr_value : Type :=
| Num (v : R)
| Str (s : string).

Inductive element : Type :=
| Element (tag : string) (attrs : list (string * attr_value))
          (children : list element).

(** A selection is read as the ordered list of children appended to it. *)
Definition selection : Type := list element.

Definition append (sel : selection) (e : element) : selection := sel ++ [e].

(** How a call ends: normally, or by a thrown error. *)
Inductive completion : Type :=
| Normal
| Throw (err : string).

(** ** Edge geometry *)

Record Segment : Type := mkSegment { x1 : R; y1 : R; x2 : R; y2 : R }.

(** [padEnd === undefined] is the omitted sixth argument. *)
Definition shortenLine (x1 y1 x2 y2 padStart : R) (padEnd : option R)
  : Segment :=
  let padEnd := match padEnd with None => padStart | Some p => p end in
  let dx := x2 - x1 in
  let dy := y2 - y1 in
  let len := sqrt (dx * dx + dy * dy) in
  mkSegment (x1 + dx * (padStart / len))
            (y1 + dy * (padStart / len))
            (x2 - dx * (padEnd / len))
            (y2 - dy * (padEnd / len)).

Record Point : Type := mkPoint { px : R; py : R }.

Record Edge : Type := mkEdge {
  from : Point;
  to : Point;
  strength : R;
  blocked : bool
}.

Definition arrowLen : R := 18.
Definition gap : R := 6.
Definition barLen : R := 20.

(** The main, padded line of an edge. *)
Definition edgeLine (edge : Edge) (nodeRadius : R) : Segment :=
  shortenLine (px (from edge)) (py (from edge))
              (px (to edge)) (py (to edge))
              (nodeRadius + gap)
              (Some (nodeRadius + gap + arrowLen)).

Definition mainLine (edge : Edge) (line : Segment) : element :=
  let strokeWidth := 2 + strength edge * 5 in
  Element "line"
    [ ("x1", Num (x1 line)); ("y1", Num (y1 line));
      ("x2", Num (x2 line)); ("y2", Num (y2 line));
      ("stroke", Str (if blocked edge then "#ccc" else "#666"));
      ("stroke-width", Num strokeWidth);
      ("stroke-dasharray", Str (if blocked edge then "8 6" else "none"));
      ("marker-end",
        Str ("url(#arrow-"
               ++ (if blocked edge then "blocked" else "active")
               ++ ")")%string);
      ("opacity", Num (if blocked edge then 0.4 else 0.85)) ]
    [].

(** The perpendicular bar of a blocked edge. *)
Definition blockedBar (line : Segment) : element :=
  let midX := (x1 line + x2 line) / 2 in
  let midY := (y1 line + y2 line) / 2 in
  let dx := x2 line - x1 line in
  let dy := y2 line - y1 line in
  let len := sqrt (dx * dx + dy * dy) in
  let px := - dy / len in
  let py := dx / len in
  Element "line"
    [ ("x1", Num (midX - px * barLen)); ("y1", Num (midY - py * barLen));
      ("x2", Num (midX + px * barLen)); ("y2", Num (midY + py * barLen));
      ("stroke", Str "#E74C3C");
      ("stroke-width", Num 3.5);
      ("stroke-linecap", Str "round") ]
    [].

Definition drawEdge (svg : selection) (edge : Edge) (nodeRadius : R)
  : selection :=
  if Req_dec_T (strength edge) 0 then svg
  else
    let line := edgeLine edge nodeRadius in
    let svg := append svg (mainLine edge line) in
    if blocked edge then append svg (blockedBar line) else svg.

(** ** Area-proportional circle fills *)

Definition areaFraction (h r : R) : R :=
  if Rle_dec h 0 then 0
  else if Rge_dec h (2 * r) then 1
  else
    let u := h / r - 1 in
    0.5 + (asin u + u * sqrt (1 - u * u)) / PI.

(** One pass through the body of the bisection loop. *)
Definition bisectBody (frac r : R) (b : R * R) : R * R :=
  let (lo, hi) := b in
  let mid := (lo + hi) / 2 in
  if Rlt_dec (areaFraction mid r) frac then (mid, hi) else (lo, mid).

(** [n] passes through the body: the [for] loop with [n] iterations left. *)
Fixpoint bisectLoop (n : nat) (frac r : R) (b : R * R) : R * R :=
  match n with
  | O => b
  | S n' => bisectLoop n' frac r (bisectBody frac r b)
  end.

Definition areaToHeight (frac r : R) : R :=
  if Rle_dec frac 0 then 0
  else if Rge_dec frac 1 then 2 * r
  else
    let (lo, hi) := bisectLoop 30 frac r (0, 2 * r) in
    (lo + hi) / 2.

(** The same loop, one iteration at a time, with its counter [i]. *)
Record LoopState : Type := mkLoop { loop_i : nat; loop_lo : R; loop_hi : R }.

Inductive loopStep (frac r : R) : LoopState -> LoopState -> Prop :=
| loopStep_iter i lo hi lo' hi' :
    (i < 30)%nat ->
    bisectBody frac r (lo, hi) = (lo', hi') ->
    loopStep frac r (mkLoop i lo hi) (mkLoop (S i) lo' hi').

Inductive loopSteps (frac r : R) : nat -> LoopState -> LoopState -> Prop :=
| loopSteps_O s : loopSteps frac r O s s
| loopSteps_S n s s' s'' :
    loopStep frac r s s' -> loopSteps frac r n s' s'' ->
    loopSteps frac r (S n) s s''.

(** ** Nodes with stacked bands *)

Record Band : Type := mkBand { prop : R; fill : string }.

(** [bottomUp] and [topDown] may be missing from the object. *)
Record Bands : Type := mkBands {
  bottomUp : option (list Band);
  topDown : option (list Band)
}.

(** [x || []] on a list that may be missing. *)
Definition orEmpty (l : option (list Band)) : list Band :=
  match l with Some l => l | None => [] end.

(** [baseColor || "#bbb"]: a missing or empty string is falsy. *)
Definition orGray (c : option string) : string :=
  match c with
  | None => "#bbb"
  | Some s => if String.eqb s "" then "#bbb" else s
  end.

Definition rect (x y width height : R) (fill : string) : element :=
  Element "rect"
    [ ("x", Num x); ("y", Num y);
      ("width", Num width); ("height", Num height);
      ("fill", Str fill) ]
    [].

(** The loop variables of one pass over a stack, and the children the
    pass has appended to the clipped group so far. *)
Record Pass : Type := mkPass {
  cumFrac : R;
  prev : R;
  group : selection
}.

(** Which of the two stacks a pass draws. *)
Inductive Stack : Type := Primary | Secondary.

(** The rectangle of a band, by stack and orientation. *)
Definition bandRect (stack : Stack) (horiz : bool) (cx cy r : R)
           (prev extent : R) (fill : string) : element :=
  let diam := r * 2 in
  let size := extent - prev in
  match stack, horiz with
  | Primary, true => rect (cx - r + prev) (cy - r) size diam fill
  | Primary, false => rect (cx - r) (cy + r - extent) diam size fill
  | Secondary, true => rect (cx + r - extent) (cy - r) size diam fill
  | Secondary, false => rect (cx - r) (cy - r + prev) diam size fill
  end.

(** The body of the loop over one stack. *)
Definition bandStep (stack : Stack) (horiz : bool) (cx cy r : R)
           (st : Pass) (band : Band) : Pass :=
  if Rgt_dec (prop band) 0.001 then
    let cumFrac := cumFrac st + prop band in
    let extent := areaToHeight (Rmin cumFrac 1) r in
    let size := extent - prev st in
    let group :=
      if Rgt_dec size 0.5
      then append (group st)
                  (bandRect stack horiz cx cy r (prev st) extent (fill band))
      else group st in
    mkPass cumFrac extent group
  else st.

(** A whole pass: [cumFrac] and [prev] start at 0. *)
Definition bandPass (stack : Stack) (horiz : bool) (cx cy r : R)
           (bands : list Band) (group : selection) : Pass :=
  fold_left (bandStep stack horiz cx cy r) bands (mkPass 0 0 group).

Definition outline (cx cy r : R) : element :=
  Element "circle"
    [ ("cx", Num cx); ("cy", Num cy); ("r", Num r);
      ("fill", Str "none"); ("stroke", Str "#333");
      ("stroke-width", Num 2) ]
    [].

Definition clipGroup (clipId : string) (children : selection) : element :=
  Element "g" [ ("clip-path", Str ("url(#" ++ clipId ++ ")")%string) ] children.

(** [bands] is [None] when the caller passes [undefined]; reading a
    property of it then throws, after the group and its base fill have
    been appended. *)
Definition drawNode (svg : selection) (cx cy nodeRadius : R)
           (clipId : string) (bands : option Bands)
           (orientation : option string) (baseColor : option string)
  : selection * completion :=
  let r := nodeRadius in
  let diam := r * 2 in
  let horiz :=
    match orientation with
    | Some o => String.eqb o "horizontal"
    | None => false
    end in
  let base := [rect (cx - r) (cy - r) diam diam (orGray baseColor)] in
  match bands with
  | None =>
      (append svg (clipGroup clipId base),
       Throw "TypeError: Cannot read properties of undefined")
  | Some bands =>
      let p1 := bandPass Primary horiz cx cy r
                         (orEmpty (bottomUp bands)) base in
      let p2 := bandPass Secondary horiz cx cy r
                         (orEmpty (topDown bands)) (group p1) in
      (append (append svg (clipGroup clipId (group p2)))
              (outline cx cy r),
       Normal)
  end.

(** ** The source on IEEE binary64 numbers *)

Module F64.
Import PrimFloat.
Local Open Scope float_scope.

Record Segment : Type := mkSegment {
  x1 : float; y1 : float; x2 : float; y2 : float
}.

Definition shortenLine (x1 y1 x2 y2 padStart : float) (padEnd : option float)
  : Segment :=
  let padEnd := match padEnd with None => padStart | Some p => p end in
  let dx := x2 - x1 in
  let dy := y2 - y1 in
  let len := sqrt (dx * dx + dy * dy) in
  mkSegment (x1 + dx * (padStart / len))
            (y1 + dy * (padStart / len))
            (x2 - dx * (padEnd / len))
            (y2 - dy * (padEnd / len)).

(** The padded line of [drawEdge], with [gap = 6] and [arrowLen = 18]. *)
Definition edgeLine (fromX fromY toX toY nodeRadius : float) : Segment :=
  shortenLine fromX fromY toX toY
              (nodeRadius + 6) (Some (nodeRadius + 6 + 18)).

(** The end points of the bar of a blocked edge, with [barLen = 20]. *)
Definition blockedBar (line : Segment) : Segment :=
  let midX := (x1 line + x2 line) / 2 in
  let midY := (y1 line + y2 line) / 2 in
  let dx := x2 line - x1 line in
  let dy := y2 line - y1 line in
  let len := sqrt (dx * dx + dy * dy) in
  let px := - dy / len in
  let py := dx / len in
  mkSegment (midX - px * 20) (midY - py * 20)
            (midX + px * 20) (midY + py * 20).

(** [Math.PI], the binary64 number nearest to pi. *)
Definition PI : float := 0x1.921fb54442d18p+1.

(** [Math.asin], where its value is fixed: NaN at NaN and outside
    [-1, 1], and the argument itself at [+0] and [-0], by ECMAScript;
    and at [-(1 - 2^-52)] the value [-0x1.921fb4e9c057fp+0] that the
    fdlibm routine of V8 returns, the binary64 number nearest to the
    real arc sine.  Elsewhere the value is not modelled. *)
Definition asin (x : float) : option float :=
  if is_nan x then Some nan
  else if 1 <? abs x then Some nan
  else if x =? 0 then Some x
  else if x =? -0x1.ffffffffffffep-1 then Some (-0x1.921fb4e9c057fp+0)
  else None.

Definition areaFraction (h r : float) : option float :=
  if h <=? 0 then Some 0
  else if 2 * r <=? h then Some 1
  else
    let u := h / r - 1 in
    match asin u with
    | Some a => Some (0.5 + (a + u * sqrt (1 - u * u)) / PI)
    | None => None
    end.

(** One iteration of the loop of [areaToHeight] on the bracket
    [(lo, hi)]. *)
Definition bisectBody (frac r : float) (b : float * float)
  : option (float * float) :=
  let (lo, hi) := b in
  let mid := (lo + hi) / 2 in
  match areaFraction mid r with
  | Some a => Some (if a <? frac then (mid, hi) else (lo, mid))
  | None => None
  end.

Fixpoint bisectLoop (n : nat) (frac r : float) (b : float * float)
  : option (float * float) :=
  match n with
  | O => Some b
  | S n' =>
      match bisectBody frac r b with
      | Some b' => bisectLoop n' frac r b'
      | None => None
      end
  end.

Definition areaToHeight (frac r : float) : option float :=
  if frac <=? 0 then Some 0
  else if 1 <=? frac then Some (2 * r)
  else
    match bisectLoop 30 frac r (0, 2 * r) with
    | Some (lo, hi) => Some ((lo + hi) / 2)
    | None => None
    end.

End F64.

(** ** Auxiliary notions used by the statements *)

(** The area [t + sin t * cos t] swept up to the angle [t]; with
    [t = asin u] it is the bracket of [areaFraction]. *)
Definition segArea (t : R) : R := t + sin t * cos t.

(** [x] equals [expected] within the relative tolerance [tol]. *)
Definition withinRel (tol x expected : R) : Prop :=
  Rabs (x - expected) <= tol * Rabs expected.

(** [x] equals [expected] within the absolute tolerance [tol]. *)
Definition withinAbs (tol x expected : R) : Prop :=
  Rabs (x - expected) <= tol.

(** The rectangles a pass appends to an empty group. *)
Definition bandRects (stack : Stack) (horiz : bool) (cx cy r : R)
           (bands : list Band) : selection :=
  group (bandPass stack horiz cx cy r bands []).

(** The test [band.prop > 0.001], as a boolean. *)
Definition aboveThreshold (band : Band) : bool :=
  if Rgt_dec (prop band) 0.001 then true else false.

(** The loop body as the specification words it: the proportion is
    always added and the extent always advanced; only the rectangle is
    left out, when the proportion or the size is too small. *)
Definition bandStepSpec (stack : Stack) (horiz : bool) (cx cy r : R)
           (st : Pass) (band : Band) : Pass :=
  let cumFrac := cumFrac st + prop band in
  let extent := areaToHeight (Rmin cumFrac 1) r in
  let size := extent - prev st in
  let group :=
    if Rgt_dec (prop band) 0.001 then
      if Rgt_dec size 0.5
      then append (group st)
                  (bandRect stack horiz cx cy r (prev st) extent (fill band))
      else group st
    else group st in
  mkPass cumFrac extent group.

Definition bandPassSpec (stack : Stack) (horiz : bool) (cx cy r : R)
           (bands : list Band) (group : selection) : Pass :=
  fold_left (bandStepSpec stack horiz cx cy r) bands (mkPass 0 0 group).




(** ** Arrowhead markers and clip paths *)

(** One arrowhead marker, with its triangular path. *)
Definition arrowMarker (id fill : string) : element :=
  Element "marker"
    [ ("id", Str id);
      ("viewBox", Str "0 0 12 12");
      ("refX", Num 0);
      ("refY", Num 6);
      ("markerWidth", Num 18);
      ("markerHeight", Num 18);
      ("markerUnits", Str "userSpaceOnUse");
      ("orient", Str "auto-start-reverse") ]
    [ Element "path"
        [ ("d", Str "M 0 0 L 12 6 L 0 12 z"); ("fill", Str fill) ] [] ].

(** The loop over the two (id, fill) pairs. *)
Definition addArrowMarkers (defs : selection) : selection :=
  fold_left (fun defs '(id, fill) => append defs (arrowMarker id fill))
            [("arrow-active", "#666"); ("arrow-blocked", "#ccc")] defs.

Definition addCircleClip (defs : selection) (id : string) (cx cy r : R)
  : selection :=
  append defs
    (Element "clipPath" [ ("id", Str id) ]
       [ Element "circle" [ ("cx", Num cx); ("cy", Num cy); ("r", Num r) ]
           [] ]).

(** ** Auxiliary notions used by the further statements *)

(** The value of an attribute of an element, if it is set. *)
Fixpoint lookupAttr (name : string) (attrs : list (string * attr_value))
  : option attr_value :=
  match attrs with
  | [] => None
  | (k, v) :: rest => if String.eqb k name then Some v else lookupAttr name rest
  end.

Definition attrOf (name : string) (e : element) : option attr_value :=
  match e with Element _ attrs _ => lookupAttr name attrs end.

Definition childrenOf (e : element) : list element :=
  match e with Element _ _ children => children end.

(** The sum of the proportions that pass the test [prop > 0.001]. *)
Definition countedProp (bands : list Band) : R :=
  fold_right (fun b acc => prop b + acc) 0 (filter aboveThreshold bands).

(** * Properties *)

(** ** Comparisons of binary64 numbers *)

Section Comparisons.

Import SpecFloat FloatOps FloatAxioms.

Lemma SFcompare_refl (x : spec_float) :
  x <> S754_nan -> SFcompare x x = Some Eq.
Proof.
  destruct x as [s | s | | s m e]; intros H; try congruence.
  - reflexivity.
  - destruct s; reflexivity.
  - cbn. rewrite Z.compare_refl.
    destruct s; cbn; rewrite ?Pos.compare_cont_refl, ?Pos.compare_refl;
      reflexivity.
Qed.

(** [frac >= 1] excludes [frac <= 0]. *)
Lemma leb_above_one (f : PrimFloat.float) :
  (1 <=? f)%float = true -> (f <=? 0)%float = false.
Proof.
  rewrite !leb_spec.
  change (Prim2SF 1) with (S754_finite false 4503599627370496 (-52)).
  change (Prim2SF 0) with (S754_zero false).
  destruct (Prim2SF f) as [s | s | | s m e]; try destruct s; cbn;
    congruence.
Qed.

(** A number above 0 is not [<= 0], and is [>=] itself, not being NaN. *)
Lemma leb_positive (x : PrimFloat.float) :
  (0 <? x)%float = true ->
  (x <=? 0)%float = false /\ (x <=? x)%float = true.
Proof.
  rewrite ltb_spec, !leb_spec.
  change (Prim2SF 0) with (S754_zero false).
  intros H. split.
  - destruct (Prim2SF x) as [s | s | | s m e]; try destruct s; cbn in *;
      congruence.
  - unfold SFleb. rewrite SFcompare_refl; [reflexivity|].
    intros E. rewrite E in H. discriminate.
Qed.

End Comparisons.

(** ** Edge geometry *)

Section ShortenLine.

Variables ax ay bx by_ : R.

Let dx := bx - ax.
Let dy := by_ - ay.
Let len := sqrt (dx * dx + dy * dy).

Lemma len_pos : (ax, ay) <> (bx, by_) -> 0 < len.
Proof.
  intros Hd. unfold len. apply sqrt_lt_R0.
  destruct (Req_dec dx 0) as [Hx | Hx].
  - destruct (Req_dec dy 0) as [Hy | Hy].
    + exfalso. apply Hd. unfold dx, dy in *. f_equal; lra.
    + nra.
  - nra.
Qed.

Lemma len_sqr : len * len = dx * dx + dy * dy.
Proof. unfold len. apply sqrt_sqrt. nra. Qed.

Lemma unit_direction :
  (ax, ay) <> (bx, by_) ->
  (dx / len) * (dx / len) + (dy / len) * (dy / len) = 1.
Proof.
  intros Hd. pose proof (len_pos Hd) as Hl. pose proof len_sqr as Hs.
  replace (dx / len * (dx / len) + dy / len * (dy / len))
    with ((dx * dx + dy * dy) / (len * len)) by (field; lra).
  rewrite <- Hs. field. lra.
Qed.

End ShortenLine.

(** C6, as stated, fails on binary64 numbers.  For the distinct
    endpoints [(0, 0)] and [(2^600, 0)] the square of [dx] overflows,
    [len] is infinite, both quotients [pad / len] are 0 and the segment
    is returned as it was given: neither end has moved.  For [(0, 0)]
    and [(2^-600, 0)] the square underflows, [len] is 0 and the result
    holds infinities and NaN. *)
#[warnings="-inexact-float"]
Lemma shortenLine_binary64_pads_lost :
  (0 <? 0x1p600)%float = true
  /\ F64.shortenLine 0 0 0x1p600 0 2 (Some 3%float)
     = F64.mkSegment 0 0 0x1p600 0
  /\ (0 <? 0x1p-600)%float = true
  /\ F64.shortenLine 0 0 0x1p-600 0 2 (Some 3%float)
     = F64.mkSegment PrimFloat.infinity PrimFloat.nan
                     PrimFloat.neg_infinity PrimFloat.nan.
Proof. vm_compute. repeat split. Qed.

(** C6, amended. In exact arithmetic, for distinct endpoints
    [shortenLine] moves the start forward and the end backward along
    the unit direction of the segment, by [padStart] and [padEnd].  An
    omitted [padEnd] is [padStart], in exact arithmetic and on binary64
    numbers, whatever the arguments.  [shortenLine(0, 0, 10, 0, 2, 3)]
    is [{x1: 2, y1: 0, x2: 7, y2: 0}], in exact arithmetic and, to the
    last bit, on binary64 numbers. *)
Theorem shortenLine_moves_inward (ax ay bx by_ padStart : R)
        (padEnd : option R) :
  (ax, ay) <> (bx, by_) ->
  let s := shortenLine ax ay bx by_ padStart padEnd in
  let len := sqrt ((bx - ax) * (bx - ax) + (by_ - ay) * (by_ - ay)) in
  let ux := (bx - ax) / len in
  let uy := (by_ - ay) / len in
  let pe := match padEnd with None => padStart | Some p => p end in
  (0 < len /\ ux * ux + uy * uy = 1) /\
  (x1 s = ax + padStart * ux /\ y1 s = ay + padStart * uy) /\
  (x2 s = bx - pe * ux /\ y2 s = by_ - pe * uy) /\
  (x2 s - x1 s = (len - padStart - pe) * ux /\
   y2 s - y1 s = (len - padStart - pe) * uy) /\
  shortenLine ax ay bx by_ padStart None
    = shortenLine ax ay bx by_ padStart (Some padStart) /\
  shortenLine 0 0 10 0 2 (Some 3) = mkSegment 2 0 7 0 /\
  F64.shortenLine 0 0 10 0 2 (Some 3%float) = F64.mkSegment 2 0 7 0 /\
  (forall a b c d p : PrimFloat.float,
      F64.shortenLine a b c d p None = F64.shortenLine a b c d p (Some p)).
Proof.
  intros Hd s len ux uy pe.
  pose proof (len_pos ax ay bx by_ Hd) as Hl. fold len in Hl.
  pose proof (unit_direction ax ay bx by_ Hd) as Hu.
  fold len in Hu. fold ux uy in Hu.
  assert (Hux : ux * len = bx - ax) by (unfold ux; field; lra).
  assert (Huy : uy * len = by_ - ay) by (unfold uy; field; lra).
  split; [split; assumption|].
  split; [split; unfold s, shortenLine, ux, uy; cbn; fold len; field; lra|].
  split; [split; unfold s, shortenLine, ux, uy, pe; cbn; fold len;
          destruct padEnd; field; lra|].
  split; [split; unfold s, shortenLine, ux, uy, pe; cbn; fold len;
          destruct padEnd; field; lra|].
  split; [reflexivity|].
  split.
  - unfold shortenLine.
    replace ((10 - 0) * (10 - 0) + (0 - 0) * (0 - 0)) with (10 * 10) by lra.
    rewrite sqrt_square by lra. f_equal; field.
  - split; [vm_compute; reflexivity|].
    intros a b c d p. reflexivity.
Qed.

(** The claimed example, obtained from the general statement. *)
Lemma shortenLine_moves_inward_witness :
  (0, 0) <> (10, 0) /\ shortenLine 0 0 10 0 2 (Some 3) = mkSegment 2 0 7 0.
Proof.
  assert (H : (0, 0) <> (10, 0)) by (intros E; inversion E; lra).
  split; [exact H|].
  exact (proj1 (proj2 (proj2 (proj2 (proj2 (proj2
    (@shortenLine_moves_inward 0 0 10 0 2 (Some 3) H))))))).
Defined.

(** ** Edges *)






(** In binary64 arithmetic the same edge gives the bar from (41, -20) to
    (41, 20). *)
Lemma blocked_bar_binary64 :
  F64.edgeLine 0 0 100 0 10 = F64.mkSegment 16 0 66 0
  /\ F64.blockedBar (F64.edgeLine 0 0 100 0 10) = F64.mkSegment 41 (-20) 41 20.
Proof. split; vm_compute; reflexivity. Qed.

(** ** The area function *)

Section SegmentArea.

Lemma segArea_deriv (c : R) :
  derivable_pt_lim segArea c (1 + (cos c * cos c + sin c * - sin c)).
Proof.
  change segArea with (id + sin * cos)%F.
  apply derivable_pt_lim_plus.
  - apply derivable_pt_lim_id.
  - apply derivable_pt_lim_mult.
    + apply derivable_pt_lim_sin.
    + apply derivable_pt_lim_cos.
Qed.

Lemma sin_sqr (c : R) : sin c * sin c = 1 - cos c * cos c.
Proof. pose proof (sin2_cos2 c) as H. unfold Rsqr in H. lra. Qed.

Lemma segArea_incr (a b : R) : a <= b -> segArea a <= segArea b.
Proof.
  intros [Hlt | ->]; [|lra].
  destruct (MVT_cor2 segArea
              (fun c => 1 + (cos c * cos c + sin c * - sin c)) a b Hlt)
    as (c & Hc & _).
  - intros c _. apply segArea_deriv.
  - pose proof (sin_sqr c). nra.
Qed.

(** Between [-PI/2] and [PI/2] the area grows at most twice as fast as
    the sine of the angle. *)
Lemma segArea_chord (a b : R) :
  - (PI / 2) <= a -> a <= b -> b <= PI / 2 ->
  segArea b - segArea a <= 2 * (sin b - sin a).
Proof.
  intros Ha [Hlt | ->] Hb; [|lra].
  destruct (MVT_cor2 (mult_real_fct 2 sin - segArea)%F
              (fun c => 2 * cos c - (1 + (cos c * cos c + sin c * - sin c)))
              a b Hlt)
    as (c & Hc & Hin).
  - intros c _. apply derivable_pt_lim_minus.
    + apply derivable_pt_lim_scal. apply derivable_pt_lim_sin.
    + apply segArea_deriv.
  - unfold minus_fct, mult_real_fct in Hc.
    assert (H0 : 0 <= cos c) by (apply cos_ge_0; lra).
    pose proof (COS_bound c) as [_ H1].
    pose proof (sin_sqr c) as Hs.
    assert (0 <= (2 * cos c - (1 + (cos c * cos c + sin c * - sin c)))
                 * (b - a)) by (apply Rmult_le_pos; nra).
    lra.
Qed.

Lemma asin_m1 : asin (-1) = - (PI / 2).
Proof. unfold asin. destruct (Rle_dec (-1) (-1)); lra. Qed.

Lemma asin_incr (u v : R) :
  -1 <= u -> u <= v -> v <= 1 -> asin u <= asin v.
Proof.
  intros Hu Huv Hv.
  pose proof (asin_bound u). pose proof (asin_bound v).
  apply sin_incr_0; try lra.
  rewrite !sin_asin by lra. exact Huv.
Qed.

(** The bracket of [areaFraction] is [segArea] at the angle [asin u]. *)
Lemma bracket_segArea (u : R) :
  -1 <= u <= 1 -> asin u + u * sqrt (1 - u * u) = segArea (asin u).
Proof.
  intros Hu. unfold segArea.
  rewrite sin_asin, cos_asin by exact Hu. reflexivity.
Qed.

Lemma segArea_PI2 : segArea (PI / 2) = PI / 2.
Proof. unfold segArea. rewrite cos_PI2. lra. Qed.

Lemma segArea_mPI2 : segArea (- (PI / 2)) = - (PI / 2).
Proof. unfold segArea. rewrite cos_neg, cos_PI2. lra. Qed.

End SegmentArea.

Section AreaFraction.

Variable r : R.
Hypothesis r_pos : 0 < r.

Lemma areaFraction_low (h : R) : h <= 0 -> areaFraction h r = 0.
Proof. intros Hh. unfold areaFraction. destruct (Rle_dec h 0); lra. Qed.

Lemma areaFraction_high (h : R) : 2 * r <= h -> areaFraction h r = 1.
Proof.
  intros Hh. unfold areaFraction.
  destruct (Rle_dec h 0); [lra|]. destruct (Rge_dec h (2 * r)); lra.
Qed.

Lemma areaFraction_mid (h : R) :
  0 < h < 2 * r ->
  areaFraction h r
  = 0.5 + (asin (h / r - 1)
           + (h / r - 1) * sqrt (1 - (h / r - 1) * (h / r - 1))) / PI.
Proof.
  intros Hh. unfold areaFraction.
  destruct (Rle_dec h 0); [lra|]. destruct (Rge_dec h (2 * r)); [lra|].
  reflexivity.
Qed.

Lemma ratio_range (h : R) : 0 <= h <= 2 * r -> -1 <= h / r - 1 <= 1.
Proof.
  intros Hh.
  assert (0 <= h / r) by (apply Rmult_le_pos; [lra|];
    left; apply Rinv_0_lt_compat; lra).
  assert (h / r <= 2).
  { apply Rmult_le_reg_r with r; [lra|].
    replace (h / r * r) with h by (field; lra). lra. }
  lra.
Qed.

(** On the whole of [[0, 2r]], saturated ends included, the area
    fraction is [segArea] at the angle of the cut. *)
Lemma areaFraction_angle (h : R) :
  0 <= h <= 2 * r ->
  areaFraction h r = 0.5 + segArea (asin (h / r - 1)) / PI.
Proof.
  intros Hh. pose proof PI_RGT_0 as Hpi.
  destruct (Req_dec h 0) as [-> | H0].
  - rewrite areaFraction_low by lra.
    replace (0 / r - 1) with (-1) by (field; lra).
    rewrite asin_m1, segArea_mPI2.
    replace (- (PI / 2) / PI) with (- / 2) by (field; lra). lra.
  - destruct (Req_dec h (2 * r)) as [-> | H2].
    + rewrite areaFraction_high by lra.
      replace (2 * r / r - 1) with 1 by (field; lra).
      rewrite asin_1, segArea_PI2.
      replace (PI / 2 / PI) with (/ 2) by (field; lra). lra.
    + rewrite areaFraction_mid by lra.
      rewrite bracket_segArea by (apply ratio_range; lra).
      reflexivity.
Qed.

Lemma ratio_incr (h1 h2 : R) : h1 <= h2 -> h1 / r - 1 <= h2 / r - 1.
Proof.
  intros Hh. apply Rplus_le_compat_r.
  apply Rmult_le_compat_r; [|exact Hh].
  left. apply Rinv_0_lt_compat. exact r_pos.
Qed.

Lemma areaFraction_incr (h1 h2 : R) :
  0 <= h1 -> h1 <= h2 -> h2 <= 2 * r ->
  areaFraction h1 r <= areaFraction h2 r.
Proof.
  intros H1 H12 H2. pose proof PI_RGT_0 as Hpi.
  rewrite !areaFraction_angle by lra.
  apply Rplus_le_compat_l, Rmult_le_compat_r.
  - left. apply Rinv_0_lt_compat. lra.
  - apply segArea_incr, asin_incr.
    + apply ratio_range; lra.
    + apply ratio_incr; lra.
    + apply ratio_range; lra.
Qed.

(** The area fraction grows at most like [2 / (PI * r)] times the cut. *)
Lemma areaFraction_lipschitz (h1 h2 : R) :
  0 <= h1 -> h1 <= h2 -> h2 <= 2 * r ->
  areaFraction h2 r - areaFraction h1 r <= 2 * (h2 - h1) / (PI * r).
Proof.
  intros H1 H12 H2. pose proof PI_RGT_0 as Hpi.
  rewrite !areaFraction_angle by lra.
  pose proof (ratio_range h1 ltac:(lra)) as Hu1.
  pose proof (ratio_range h2 ltac:(lra)) as Hu2.
  pose proof (ratio_incr h1 h2 H12) as Hu.
  pose proof (asin_bound (h1 / r - 1)) as Hb1.
  pose proof (asin_bound (h2 / r - 1)) as Hb2.
  assert (Hi : asin (h1 / r - 1) <= asin (h2 / r - 1))
    by (apply asin_incr; lra).
  assert (Hc : segArea (asin (h2 / r - 1)) - segArea (asin (h1 / r - 1))
               <= 2 * (sin (asin (h2 / r - 1)) - sin (asin (h1 / r - 1))))
    by (apply segArea_chord; lra).
  rewrite !sin_asin in Hc by lra.
  replace (h2 / r - 1 - (h1 / r - 1)) with ((h2 - h1) / r) in Hc
    by (field; lra).
  replace (0.5 + segArea (asin (h2 / r - 1)) / PI
           - (0.5 + segArea (asin (h1 / r - 1)) / PI))
    with ((segArea (asin (h2 / r - 1)) - segArea (asin (h1 / r - 1))) / PI)
    by lra.
  replace (2 * (h2 - h1) / (PI * r)) with (2 * ((h2 - h1) / r) / PI)
    by (field; lra).
  apply Rmult_le_compat_r; [|exact Hc].
  left. apply Rinv_0_lt_compat. lra.
Qed.

Lemma areaFraction_range (h : R) : 0 <= areaFraction h r <= 1.
Proof.
  destruct (Rle_dec h 0) as [H0 | H0].
  - rewrite areaFraction_low by lra. lra.
  - destruct (Rle_dec (2 * r) h) as [H2 | H2].
    + rewrite areaFraction_high by lra. lra.
    + assert (E0 : areaFraction 0 r = 0) by (apply areaFraction_low; lra).
      assert (E1 : areaFraction (2 * r) r = 1)
        by (apply areaFraction_high; lra).
      assert (areaFraction 0 r <= areaFraction h r)
        by (apply areaFraction_incr; lra).
      assert (areaFraction h r <= areaFraction (2 * r) r)
        by (apply areaFraction_incr; lra).
      lra.
Qed.

(** Near the edge the area fraction is at least quadratic in the cut. *)
Lemma areaFraction_lower (h : R) :
  0 < h -> h <= r -> (h / r) * (h / r) / 4 <= areaFraction h r.
Proof.
  intros H0 Hr. pose proof PI_RGT_0 as Hpi. pose proof PI_4 as Hpi4.
  rewrite areaFraction_angle by lra.
  set (u := h / r - 1).
  pose proof (ratio_range h ltac:(lra)) as Hu. fold u in Hu.
  assert (He : 0 < h / r <= 1).
  { split.
    - apply Rmult_lt_0_compat; [lra|]. apply Rinv_0_lt_compat; lra.
    - apply Rmult_le_reg_r with r; [lra|].
      replace (h / r * r) with h by (field; lra). lra. }
  replace (h / r) with (1 + u) in * by (unfold u; lra).
  pose proof (asin_bound u) as Hb.
  set (s := sqrt (1 - u * u)).
  assert (Hs : 1 + u <= s).
  { unfold s. rewrite <- (sqrt_square (1 + u)) at 1 by lra.
    apply sqrt_le_1; nra. }
  assert (Hphi : s <= asin u + PI / 2).
  { unfold s. change (u * u) with (Rsqr u). rewrite <- cos_asin by lra.
    rewrite cos_sin.
    destruct (Req_dec (PI / 2 + asin u) 0) as [E | E].
    - rewrite E, sin_0. lra.
    - pose proof (sin_lt_x (PI / 2 + asin u) ltac:(lra)). lra. }
  unfold segArea. rewrite sin_asin, cos_asin by lra.
  change (Rsqr u) with (u * u). fold s.
  assert (Hx : (1 + u) * (1 + u) - PI / 2 <= asin u + u * s) by nra.
  set (k := / PI).
  assert (Hk : 0 < k) by (apply Rinv_0_lt_compat; lra).
  assert (Hk1 : k * PI = 1) by (unfold k; field; lra).
  assert (Hk4 : / 4 <= k) by (apply Rinv_le_contravar; lra).
  unfold Rdiv. fold k.
  assert (((1 + u) * (1 + u) - PI / 2) * k <= (asin u + u * s) * k)
    by (apply Rmult_le_compat_r; lra).
  assert ((1 + u) * (1 + u) * / 4 <= (1 + u) * (1 + u) * k)
    by (apply Rmult_le_compat_l; nra).
  nra.
Qed.

End AreaFraction.

(** C2. For [r > 0], [areaFraction] is 0 up to the edge, 1 from the far
    edge on, and the closed form with [u = h / r - 1] in between. *)
Theorem areaFraction_cases (h r : R) :
  0 < r ->
  (h <= 0 -> areaFraction h r = 0)
  /\ (h >= 2 * r -> areaFraction h r = 1)
  /\ (0 < h < 2 * r ->
      let u := h / r - 1 in
      areaFraction h r = 0.5 + (asin u + u * sqrt (1 - u * u)) / PI).
Proof.
  intros Hr. repeat split.
  - apply areaFraction_low.
  - intros Hh. apply areaFraction_high; lra.
  - intros Hh u. apply areaFraction_mid. exact Hh.
Qed.

Lemma areaFraction_cases_witness :
  areaFraction 0 10 = 0 /\ areaFraction 20 10 = 1
  /\ areaFraction 5 10
     = 0.5 + (asin (5 / 10 - 1)
              + (5 / 10 - 1) * sqrt (1 - (5 / 10 - 1) * (5 / 10 - 1))) / PI.
Proof.
  destruct (areaFraction_cases 0 10 ltac:(lra)) as (H0 & _ & _).
  destruct (areaFraction_cases 20 10 ltac:(lra)) as (_ & H1 & _).
  destruct (areaFraction_cases 5 10 ltac:(lra)) as (_ & _ & H).
  split; [apply H0; lra|]. split; [apply H1; lra|].
  apply H. lra.
Defined.

Lemma areaFraction_half (r : R) : 0 < r -> areaFraction r r = 0.5.
Proof.
  intros Hr. rewrite areaFraction_mid by lra.
  replace (r / r - 1) with 0 by (field; lra).
  rewrite asin_0. unfold Rdiv. rewrite !Rmult_0_l, Rplus_0_l, Rmult_0_l.
  lra.
Qed.

(** C3, as stated, fails on binary64 numbers: with radius 1 the height
    [2^-52], the first one above 0 at which [h / r - 1] is not [-1],
    gets the fraction [-2^-53], below the fraction 0 of the height 0.
    There [u] is [-(1 - 2^-52)], [1 - u * u] rounds to [2^-51], and the
    rounded sum of the arc sine and the product, divided by [Math.PI],
    is [-(1/2 + 2^-53)]. *)
Lemma areaFraction_binary64_decreases :
  (0 <? 0x1p-52)%float = true
  /\ (0x1p-52 <? 2 * 1)%float = true
  /\ F64.areaFraction 0 1 = Some 0%float
  /\ F64.areaFraction 0x1p-52 1 = Some (-0x1p-53)%float
  /\ (-0x1p-53 <? 0)%float = true.
Proof. vm_compute. repeat split. Qed.

(** C3, amended. In exact arithmetic, for [r > 0], [areaFraction] is
    non-decreasing in [h] on [[0, 2r]], is 0 at [0], 1 at [2r] and one
    half at [r].  On binary64 numbers it is 0 at height 0 for every
    radius, 1 at [2r] whenever [2r] is above 0, and one half at [r]
    for [r = 10]. *)
Theorem areaFraction_monotone (r : R) :
  0 < r ->
  (forall h1 h2 : R,
      0 <= h1 -> h1 <= h2 -> h2 <= 2 * r ->
      areaFraction h1 r <= areaFraction h2 r)
  /\ areaFraction 0 r = 0
  /\ areaFraction (2 * r) r = 1
  /\ areaFraction r r = 0.5
  /\ (forall r' : PrimFloat.float, F64.areaFraction 0 r' = Some 0%float)
  /\ (forall r' : PrimFloat.float,
         (0 <? 2 * r')%float = true ->
         F64.areaFraction (2 * r') r' = Some 1%float)
  /\ F64.areaFraction 10 10 = Some 0.5%float.
Proof.
  intros Hr.
  split; [intros h1 h2; apply areaFraction_incr; exact Hr|].
  split; [apply areaFraction_low; lra|].
  split; [apply areaFraction_high; lra|].
  split; [apply areaFraction_half; exact Hr|].
  split; [intros r'; reflexivity|].
  split; [|vm_compute; reflexivity].
  intros r' H. destruct (leb_positive _ H) as [H0 H1].
  unfold F64.areaFraction. rewrite H0, H1. reflexivity.
Qed.

Lemma areaFraction_monotone_witness :
  areaFraction 3 10 <= areaFraction 7 10 /\ areaFraction 10 10 = 0.5.
Proof.
  destruct (areaFraction_monotone 10 ltac:(lra)) as (Hm & _ & _ & Hh & _).
  split; [apply Hm; lra | exact Hh].
Defined.

(** ** The bisection *)

Section Bisection.

Variables frac r : R.

Lemma bisectBody_cases (lo hi : R) :
  (areaFraction ((lo + hi) / 2) r < frac
   /\ bisectBody frac r (lo, hi) = ((lo + hi) / 2, hi))
  \/ (frac <= areaFraction ((lo + hi) / 2) r
      /\ bisectBody frac r (lo, hi) = (lo, (lo + hi) / 2)).
Proof.
  unfold bisectBody.
  destruct (Rlt_dec (areaFraction ((lo + hi) / 2) r) frac); [left | right];
    split; try reflexivity; lra.
Qed.

Lemma bisectLoop_S (n : nat) (b : R * R) :
  bisectLoop (S n) frac r b = bisectLoop n frac r (bisectBody frac r b).
Proof. reflexivity. Qed.

(** The bracket never leaves the interval it started from. *)
Lemma bisectLoop_bounds (n : nat) : forall lo hi : R,
  lo <= hi ->
  lo <= fst (bisectLoop n frac r (lo, hi))
  /\ fst (bisectLoop n frac r (lo, hi)) <= snd (bisectLoop n frac r (lo, hi))
  /\ snd (bisectLoop n frac r (lo, hi)) <= hi.
Proof.
  induction n as [|n IH]; intros lo hi Hle; cbn [bisectLoop fst snd].
  - lra.
  - destruct (bisectBody_cases lo hi) as [[_ ->] | [_ ->]].
    + specialize (IH ((lo + hi) / 2) hi ltac:(lra)). lra.
    + specialize (IH lo ((lo + hi) / 2) ltac:(lra)). lra.
Qed.

(** Every iteration halves the bracket. *)
Lemma bisectLoop_width (n : nat) : forall lo hi : R,
  snd (bisectLoop n frac r (lo, hi)) - fst (bisectLoop n frac r (lo, hi))
  = (hi - lo) / 2 ^ n.
Proof.
  induction n as [|n IH]; intros lo hi; cbn [bisectLoop fst snd].
  - cbn. lra.
  - pose proof (pow_lt 2 n ltac:(lra)) as Hp.
    destruct (bisectBody_cases lo hi) as [[_ ->] | [_ ->]]; rewrite IH;
      cbn [pow]; field; lra.
Qed.

(** The target stays bracketed by the area fractions of the two ends. *)
Lemma bisectLoop_bracket (n : nat) : forall lo hi : R,
  areaFraction lo r < frac -> frac <= areaFraction hi r ->
  areaFraction (fst (bisectLoop n frac r (lo, hi))) r < frac
  /\ frac <= areaFraction (snd (bisectLoop n frac r (lo, hi))) r.
Proof.
  induction n as [|n IH]; intros lo hi Hlo Hhi; cbn [bisectLoop fst snd].
  - split; assumption.
  - destruct (bisectBody_cases lo hi) as [[Hm ->] | [Hm ->]];
      apply IH; assumption.
Qed.

(** When every midpoint is at or above the target, only [hi] moves. *)
Lemma bisectLoop_all_hi (n : nat) : forall hi : R,
  (forall h, hi / 2 ^ n <= h -> h <= hi -> frac <= areaFraction h r) ->
  0 < hi ->
  bisectLoop n frac r (0, hi) = (0, hi / 2 ^ n).
Proof.
  induction n as [|n IH]; intros hi Hall Hpos; cbn [bisectLoop].
  - f_equal. cbn. field.
  - pose proof (pow_lt 2 n ltac:(lra)) as Hp.
    pose proof (pow_R1_Rle 2 n ltac:(lra)) as Hp1.
    assert (Hq : hi / 2 ^ S n <= hi / 2).
    { cbn [pow]. unfold Rdiv. apply Rmult_le_compat_l; [lra|].
      apply Rinv_le_contravar; lra. }
    destruct (bisectBody_cases 0 hi) as [[Hm _] | [_ ->]].
    + exfalso. specialize (Hall ((0 + hi) / 2) ltac:(lra) ltac:(lra)). lra.
    + rewrite IH.
      * f_equal. cbn [pow]. field. lra.
      * intros h H1 H2. apply Hall; [|lra].
        replace (hi / 2 ^ S n) with ((0 + hi) / 2 / 2 ^ n)
          by (cbn [pow]; field; lra).
        exact H1.
      * lra.
Qed.

(** With a negative radius every midpoint is below the edge, so only
    [lo] moves, towards [2 * r]. *)
Lemma bisectLoop_all_lo (n : nat) : forall lo : R,
  r < 0 -> 0 < frac -> lo <= 0 ->
  bisectLoop n frac r (lo, 2 * r) = (2 * r - (2 * r - lo) / 2 ^ n, 2 * r).
Proof.
  induction n as [|n IH]; intros lo Hr Hf Hlo; cbn [bisectLoop].
  - f_equal. cbn. field.
  - pose proof (pow_lt 2 n ltac:(lra)) as Hp.
    destruct (bisectBody_cases lo (2 * r)) as [[_ ->] | [Hm _]].
    + rewrite IH by lra. f_equal. cbn [pow]. field. lra.
    + exfalso. unfold areaFraction in Hm.
      destruct (Rle_dec ((lo + 2 * r) / 2) 0); lra.
Qed.

End Bisection.

Section RoundTrip.

Variable r : R.
Hypothesis r_pos : 0 < r.

Lemma areaToHeight_low (frac : R) : frac <= 0 -> areaToHeight frac r = 0.
Proof. intros H. unfold areaToHeight. destruct (Rle_dec frac 0); lra. Qed.

Lemma areaToHeight_high (frac : R) : 1 <= frac -> areaToHeight frac r = 2 * r.
Proof.
  intros H. unfold areaToHeight.
  destruct (Rle_dec frac 0); [lra|]. destruct (Rge_dec frac 1); lra.
Qed.

Lemma areaToHeight_mid (frac : R) :
  0 < frac < 1 ->
  areaToHeight frac r
  = (fst (bisectLoop 30 frac r (0, 2 * r))
     + snd (bisectLoop 30 frac r (0, 2 * r))) / 2.
Proof.
  intros H. unfold areaToHeight.
  destruct (Rle_dec frac 0); [lra|]. destruct (Rge_dec frac 1); [lra|].
  destruct (bisectLoop 30 frac r (0, 2 * r)). reflexivity.
Qed.

(** What the loop guarantees about the height it returns. *)
Lemma areaToHeight_bracket (frac : R) :
  0 < frac < 1 ->
  exists lo hi : R,
    areaToHeight frac r = (lo + hi) / 2
    /\ 0 <= lo /\ lo < hi /\ hi <= 2 * r
    /\ hi - lo = 2 * r / 2 ^ 30
    /\ areaFraction lo r < frac /\ frac <= areaFraction hi r.
Proof.
  intros Hf.
  exists (fst (bisectLoop 30 frac r (0, 2 * r))),
         (snd (bisectLoop 30 frac r (0, 2 * r))).
  pose proof (bisectLoop_bounds frac r 30 0 (2 * r) ltac:(lra))
    as (B1 & B2 & B3).
  pose proof (bisectLoop_width frac r 30 0 (2 * r)) as W.
  pose proof (bisectLoop_bracket frac r 30 0 (2 * r)) as K.
  rewrite areaFraction_low, areaFraction_high in K by lra.
  specialize (K ltac:(lra) ltac:(lra)).
  replace (2 * r - 0) with (2 * r) in W by lra.
  assert (0 < 2 * r / 2 ^ 30).
  { apply Rmult_lt_0_compat; [lra|]. apply Rinv_0_lt_compat, pow_lt. lra. }
  repeat split; try tauto; try lra.
  apply areaToHeight_mid. exact Hf.
Qed.

(** The area fraction of the returned height misses the target by at
    most [4 / (PI * 2 ^ 30)]. *)
Lemma roundtrip_error (frac : R) :
  0 <= frac <= 1 ->
  Rabs (areaFraction (areaToHeight frac r) r - frac) <= 4 / (PI * 2 ^ 30).
Proof.
  intros Hf. pose proof PI_RGT_0 as Hpi.
  assert (Hb : 0 < 4 / (PI * 2 ^ 30)).
  { apply Rmult_lt_0_compat; [lra|]. apply Rinv_0_lt_compat.
    apply Rmult_lt_0_compat; [lra|]. apply pow_lt. lra. }
  destruct (Rle_dec frac 0) as [H0 | H0].
  { rewrite areaToHeight_low, areaFraction_low by lra.
    replace (0 - frac) with 0 by lra. rewrite Rabs_R0. lra. }
  destruct (Rle_dec 1 frac) as [H1 | H1].
  { rewrite areaToHeight_high, areaFraction_high by lra.
    replace (1 - frac) with 0 by lra. rewrite Rabs_R0. lra. }
  destruct (areaToHeight_bracket frac ltac:(lra))
    as (lo & hi & -> & L0 & Llt & L2 & W & Klo & Khi).
  pose proof (areaFraction_incr r r_pos lo ((lo + hi) / 2)
                ltac:(lra) ltac:(lra) ltac:(lra)) as M1.
  pose proof (areaFraction_incr r r_pos ((lo + hi) / 2) hi
                ltac:(lra) ltac:(lra) ltac:(lra)) as M2.
  pose proof (areaFraction_lipschitz r r_pos lo hi
                ltac:(lra) ltac:(lra) ltac:(lra)) as Lip.
  rewrite W in Lip.
  replace (2 * (2 * r / 2 ^ 30) / (PI * r)) with (4 / (PI * 2 ^ 30)) in Lip
    by (field; repeat split; try lra; apply pow_nonzero; lra).
  apply Rabs_le. lra.
Qed.

End RoundTrip.

Lemma PI_gt_3 : 3 < PI.
Proof. pose proof PI2_3_2. lra. Qed.

Lemma roundtrip_bound : 4 / (PI * 2 ^ 30) <= 1e-8.
Proof.
  pose proof PI_gt_3 as Hpi.
  assert (H : / (PI * 2 ^ 30) <= / (3 * 2 ^ 30))
    by (apply Rinv_le_contravar; lra).
  unfold Rdiv. lra.
Qed.

Lemma PI_gt_314 : 3.14 < PI.
Proof.
  pose proof (PI_2_3_7_ineq 1) as [H _].
  unfold sum_f_R0, tg_alt, PI_2_3_7_tg, Ratan_seq in H.
  cbn [Nat.mul Nat.add pow INR] in H.
  lra.
Qed.

Lemma roundtrip_bound_tight : 4 / (PI * 2 ^ 30) <= 1.19e-9.
Proof.
  pose proof PI_gt_314 as Hpi.
  assert (H : / (PI * 2 ^ 30) <= / (3.14 * 2 ^ 30))
    by (apply Rinv_le_contravar; lra).
  unfold Rdiv. lra.
Qed.

(** ** Heights returned by the inversion *)

Lemma areaToHeight_range (frac r : R) :
  0 <= r -> 0 <= areaToHeight frac r <= 2 * r.
Proof.
  intros Hr. destruct (Rle_dec frac 0) as [H0 | H0].
  - rewrite areaToHeight_low by lra. lra.
  - destruct (Rle_dec 1 frac) as [H1 | H1].
    + rewrite areaToHeight_high by lra. lra.
    + rewrite areaToHeight_mid by lra.
      pose proof (bisectLoop_bounds frac r 30 0 (2 * r) ltac:(lra)). lra.
Qed.

(** For the target one half the first midpoint, [r], is not below the
    target, so the height returned is below [r]. *)
Lemma areaToHeight_half (r : R) : 0 < r -> areaToHeight 0.5 r < r.
Proof.
  intros Hr. rewrite areaToHeight_mid by lra.
  rewrite (bisectLoop_S 0.5 r 29).
  destruct (bisectBody_cases 0.5 r 0 (2 * r)) as [[Hm _] | [_ ->]].
  - replace ((0 + 2 * r) / 2) with r in Hm by lra.
    rewrite areaFraction_half in Hm by lra. lra.
  - replace ((0 + 2 * r) / 2) with r by lra.
    pose proof (bisectLoop_bounds 0.5 r 29 0 r ltac:(lra))
      as (B1 & B2 & B3).
    pose proof (bisectLoop_width 0.5 r 29 0 r) as W.
    assert (0 < (r - 0) / 2 ^ 29).
    { apply Rmult_lt_0_compat; [lra|]. apply Rinv_0_lt_compat, pow_lt. lra. }
    lra.
Qed.

(** For a target above one half the first midpoint is below the target,
    so the height returned is at least [r]. *)
Lemma areaToHeight_above_half (frac r : R) :
  0 < r -> 0.5 < frac -> r <= areaToHeight frac r.
Proof.
  intros Hr Hf. destruct (Rle_dec 1 frac) as [H1 | H1].
  - rewrite areaToHeight_high by lra. lra.
  - rewrite areaToHeight_mid by lra.
    rewrite (bisectLoop_S frac r 29).
    destruct (bisectBody_cases frac r 0 (2 * r)) as [[_ ->] | [Hm _]].
    + replace ((0 + 2 * r) / 2) with r by lra.
      pose proof (bisectLoop_bounds frac r 29 r (2 * r) ltac:(lra)). lra.
    + replace ((0 + 2 * r) / 2) with r in Hm by lra.
      rewrite areaFraction_half in Hm by lra. lra.
Qed.

(** With a negative radius the height is the same for every target
    strictly between 0 and 1. *)
Lemma areaToHeight_negative (frac r : R) :
  r < 0 -> 0 < frac < 1 -> areaToHeight frac r = 2 * r - r / 2 ^ 30.
Proof.
  intros Hr Hf. rewrite areaToHeight_mid by lra.
  rewrite bisectLoop_all_lo by lra. cbn [fst snd]. field.
Qed.




(** ** Termination of the inversion *)

Section Loop.

Variables frac r : R.

(** Running the loop for [k] more iterations is [bisectLoop k]. *)
Lemma loopSteps_bisectLoop (k : nat) : forall (i : nat) (lo hi : R),
  (i + k <= 30)%nat ->
  loopSteps frac r k (mkLoop i lo hi)
    (mkLoop (i + k) (fst (bisectLoop k frac r (lo, hi)))
            (snd (bisectLoop k frac r (lo, hi)))).
Proof.
  induction k as [|k IH]; intros i lo hi Hk.
  - rewrite Nat.add_0_r. cbn. constructor.
  - cbn [bisectLoop].
    destruct (bisectBody frac r (lo, hi)) as [lo' hi'] eqn:E.
    apply loopSteps_S with (mkLoop (S i) lo' hi').
    + constructor; [lia | exact E].
    + replace (i + S k)%nat with (S i + k)%nat by lia.
      apply IH. lia.
Qed.

Lemma loopSteps_counter (n : nat) (s s' : LoopState) :
  loopSteps frac r n s s' ->
  loop_i s' = (loop_i s + n)%nat /\ (n = O \/ loop_i s' <= 30)%nat.
Proof.
  induction 1 as [s | n s s1 s2 Hstep _ [IH1 IH2]].
  - split; [lia | left; reflexivity].
  - destruct Hstep as [i lo hi lo' hi' Hi _]. cbn in *.
    split; [lia|]. right. destruct IH2 as [-> | IH2]; lia.
Qed.

(** A state is final exactly when its counter has reached 30. *)
Lemma loop_final (s : LoopState) :
  (forall s', ~ loopStep frac r s s') <-> (30 <= loop_i s)%nat.
Proof.
  destruct s as [i lo hi]. cbn. split.
  - intros Hstuck. destruct (Nat.le_gt_cases 30 i) as [H | H]; [exact H|].
    exfalso. destruct (bisectBody frac r (lo, hi)) as [lo' hi'] eqn:E.
    apply (Hstuck (mkLoop (S i) lo' hi')). constructor; assumption.
  - intros Hi s' Hstep. inversion Hstep. lia.
Qed.

End Loop.

(** C8, as stated, fails on binary64 numbers: for the fraction 0.9 and
    the radius [8e307], [2r] is finite but the second midpoint
    [(r + 2r) / 2] overflows, [hi] becomes infinite and the value
    returned is infinite, outside [[0, 2r]]. *)
#[warnings="-inexact-float"]
Lemma areaToHeight_binary64_overflow :
  (0 <? 0.9)%float = true /\ (0.9 <? 1)%float = true
  /\ (2 * 8e307 <? PrimFloat.infinity)%float = true
  /\ F64.areaToHeight 0.9 8e307 = Some PrimFloat.infinity
  /\ (PrimFloat.infinity <=? 2 * 8e307)%float = false.
Proof. vm_compute. repeat split. Qed.

(** C8, amended. [areaToHeight] saturates at both ends, returning 0 for
    a fraction of at most 0 and [2r] for a fraction of at least 1, in
    exact arithmetic and on binary64 numbers alike; in between it runs
    the loop body exactly 30 times, whatever the inputs, and returns
    the midpoint of the last bracket, which in exact arithmetic lies
    between 0 and [2r], that is in [[0, 2r]] for a radius that is not
    negative. *)
Theorem areaToHeight_terminates (frac r : R) :
  (frac <= 0 -> areaToHeight frac r = 0)
  /\ (frac >= 1 -> areaToHeight frac r = 2 * r)
  /\ (0 < frac < 1 ->
      (exists final : LoopState,
          loopSteps frac r 30 (mkLoop 0 0 (2 * r)) final
          /\ (forall s, ~ loopStep frac r final s)
          /\ areaToHeight frac r = (loop_lo final + loop_hi final) / 2)
      /\ (forall (n : nat) (s : LoopState),
             loopSteps frac r n (mkLoop 0 0 (2 * r)) s ->
             (forall s', ~ loopStep frac r s s') -> n = 30%nat)
      /\ Rmin 0 (2 * r) <= areaToHeight frac r <= Rmax 0 (2 * r)
      /\ (0 <= r -> 0 <= areaToHeight frac r <= 2 * r))
  /\ (forall f r' : PrimFloat.float,
         (f <=? 0)%float = true -> F64.areaToHeight f r' = Some 0%float)
  /\ (forall f r' : PrimFloat.float,
         (1 <=? f)%float = true ->
         F64.areaToHeight f r' = Some (2 * r')%float).
Proof.
  split; [apply areaToHeight_low|].
  split; [intros H; apply areaToHeight_high; lra|].
  split; [|split;
    [intros f r' H; unfold F64.areaToHeight; rewrite H; reflexivity
    |intros f r' H1; unfold F64.areaToHeight;
     rewrite (leb_above_one f H1), H1; reflexivity]].
  intros Hf. split; [|split; [|split]].
  - eexists. split; [|split].
    + apply (loopSteps_bisectLoop frac r 30 0 0 (2 * r)). lia.
    + apply loop_final. cbn. lia.
    + cbn [loop_lo loop_hi]. apply areaToHeight_mid. exact Hf.
  - intros n s Hsteps Hstuck.
    apply loopSteps_counter in Hsteps. cbn in Hsteps.
    apply loop_final in Hstuck. lia.
  - destruct (Rle_dec 0 r) as [Hr | Hr].
    + rewrite Rmin_left, Rmax_right by lra. apply areaToHeight_range, Hr.
    + rewrite Rmin_right, Rmax_left by lra.
      rewrite areaToHeight_negative by lra.
      assert (Hk : 0 < / 2 ^ 30) by (apply Rinv_0_lt_compat, pow_lt; lra).
      assert (Hk1 : / 2 ^ 30 < 1) by lra.
      unfold Rdiv. nra.
  - apply areaToHeight_range.
Qed.

Lemma areaToHeight_terminates_witness :
  areaToHeight 0 10 = 0 /\ areaToHeight 1 10 = 2 * 10
  /\ 0 <= areaToHeight 0.3 10 <= 2 * 10.
Proof.
  destruct (areaToHeight_terminates 0 10) as (H0 & _ & _).
  destruct (areaToHeight_terminates 1 10) as (_ & H1 & _).
  destruct (areaToHeight_terminates 0.3 10) as (_ & _ & H & _).
  split; [apply H0; lra|]. split; [apply H1; lra|].
  apply H; lra.
Defined.

(** ** The round trip *)

(** On the input [1e-20] with radius 1 the loop only ever lowers [hi],
    so the height returned is [1 / 2 ^ 30]. *)
Lemma areaToHeight_tiny : areaToHeight 1e-20 1 = / 2 ^ 30.
Proof.
  rewrite areaToHeight_mid by lra.
  rewrite (bisectLoop_all_hi 1e-20 1 30 (2 * 1)).
  - cbn [fst snd]. field.
  - intros h H1 H2. destruct (Rle_dec h 1) as [Hh | Hh].
    + assert (Hl : 0 < h) by lra.
      pose proof (areaFraction_lower 1 ltac:(lra) h Hl Hh) as Hlow.
      replace (h / 1) with h in Hlow by field.
      assert (/ 2 ^ 29 * / 2 ^ 29 <= h * h) by nra.
      lra.
    + pose proof (areaFraction_incr 1 ltac:(lra) 1 h
                    ltac:(lra) ltac:(lra) ltac:(lra)) as Hm.
      rewrite areaFraction_half in Hm by lra. lra.
  - lra.
Qed.

Lemma areaFraction_tiny : / 2 ^ 62 <= areaFraction (/ 2 ^ 30) 1.
Proof.
  pose proof (areaFraction_lower 1 ltac:(lra) (/ 2 ^ 30)
                ltac:(lra) ltac:(lra)) as H.
  lra.
Qed.

(** C1, as stated, fails: for the fraction [1e-20] and radius 1 the
    round trip returns at least [1 / 2 ^ 62], more than twenty times the
    fraction, so it is not within the relative tolerance [1e-4],
    whichever of the two values the tolerance is scaled by. *)
Lemma roundtrip_relative_fails :
  0 <= 1e-20 <= 1 /\ 0 < 1
  /\ ~ withinRel 1e-4 (areaFraction (areaToHeight 1e-20 1) 1) 1e-20
  /\ ~ withinRel 1e-4 1e-20 (areaFraction (areaToHeight 1e-20 1) 1).
Proof.
  split; [lra|]. split; [lra|].
  rewrite areaToHeight_tiny. pose proof areaFraction_tiny as Ha.
  set (a := areaFraction (/ 2 ^ 30) 1) in *.
  unfold withinRel. split; intros H.
  - rewrite (Rabs_pos_eq (a - 1e-20)), (Rabs_pos_eq 1e-20) in H by lra. lra.
  - rewrite Rabs_minus_sym in H.
    rewrite (Rabs_pos_eq (a - 1e-20)), (Rabs_pos_eq a) in H by lra. lra.
Qed.

(** C1, amended. In exact arithmetic, for every fraction in [[0, 1]]
    and [r > 0] the round trip is within [1.2e-9] of the fraction in
    absolute terms, hence within [1e-4]; it is within the relative
    tolerance [1e-4] for the fraction 0 and for every fraction of at
    least [1.2e-5].  On binary64 numbers the absolute tolerance is lost
    at extreme radii: with the radius [5e-324] the height returned for
    0.3 is 0, whose fraction is 0, and with the radius [8e307] the height
    returned for 0.9 is infinite, whose fraction is 1. *)
#[warnings="-inexact-float"]
Theorem roundtrip_absolute (frac r : R) :
  0 <= frac <= 1 -> 0 < r ->
  withinAbs 1e-4 (areaFraction (areaToHeight frac r) r) frac
  /\ withinAbs 1.2e-9 (areaFraction (areaToHeight frac r) r) frac
  /\ (frac = 0 \/ 1.2e-5 <= frac ->
      withinRel 1e-4 (areaFraction (areaToHeight frac r) r) frac)
  /\ (F64.areaToHeight 0.3 5e-324 = Some 0%float
      /\ F64.areaFraction 0 5e-324 = Some 0%float)
  /\ (F64.areaToHeight 0.9 8e307 = Some PrimFloat.infinity
      /\ F64.areaFraction PrimFloat.infinity 8e307 = Some 1%float).
Proof.
  intros Hf Hr.
  pose proof (roundtrip_error r Hr frac Hf) as He.
  pose proof roundtrip_bound_tight as Hb.
  unfold withinAbs, withinRel. split; [lra|]. split; [lra|].
  split; [|vm_compute; repeat split].
  intros [H0 | Hl].
  - subst frac. rewrite (areaToHeight_low r 0) by lra.
    rewrite (areaFraction_low r 0) by lra.
    rewrite Rminus_diag, Rabs_R0. lra.
  - rewrite (Rabs_pos_eq frac) by lra. nra.
Qed.

Lemma roundtrip_absolute_witness :
  withinAbs 1e-4 (areaFraction (areaToHeight 0.3 10) 10) 0.3.
Proof.
  apply (roundtrip_absolute 0.3 10); lra.
Defined.

(** ** Band passes *)

Section BandPass.

Variables (stack : Stack) (horiz : bool) (cx cy r : R).

Lemma bandStep_skip (st : Pass) (band : Band) :
  prop band <= 0.001 -> bandStep stack horiz cx cy r st band = st.
Proof.
  intros H. unfold bandStep. destruct (Rgt_dec (prop band) 0.001); [lra|].
  reflexivity.
Qed.

Lemma bandStep_count (st : Pass) (band : Band) :
  prop band > 0.001 ->
  bandStep stack horiz cx cy r st band
  = mkPass (cumFrac st + prop band)
           (areaToHeight (Rmin (cumFrac st + prop band) 1) r)
           (if Rgt_dec (areaToHeight (Rmin (cumFrac st + prop band) 1) r
                        - prev st) 0.5
            then group st
                 ++ [bandRect stack horiz cx cy r (prev st)
                       (areaToHeight (Rmin (cumFrac st + prop band) 1) r)
                       (fill band)]
            else group st).
Proof.
  intros H. unfold bandStep. destruct (Rgt_dec (prop band) 0.001); [|lra].
  reflexivity.
Qed.

(** A pass only ever appends to the group, and what it appends does not
    depend on what the group already holds. *)
Lemma fold_bandStep_group (bands : list Band) : forall st : Pass,
  fold_left (bandStep stack horiz cx cy r) bands st
  = let st0 := fold_left (bandStep stack horiz cx cy r) bands
                 (mkPass (cumFrac st) (prev st) []) in
    mkPass (cumFrac st0) (prev st0) (group st ++ group st0).
Proof.
  induction bands as [|b bands IH]; intros st; cbn [fold_left].
  - cbn. rewrite app_nil_r. destruct st; reflexivity.
  - rewrite IH.
    rewrite (IH (bandStep stack horiz cx cy r
                   (mkPass (cumFrac st) (prev st) []) b)).
    cbn zeta. unfold bandStep. cbn [cumFrac prev group].
    destruct (Rgt_dec (prop b) 0.001); cbn [cumFrac prev group].
    + destruct (Rgt_dec _ 0.5); cbn [cumFrac prev group]; unfold append;
        rewrite ?app_nil_l, <- ?app_assoc; reflexivity.
    + reflexivity.
Qed.

Lemma bandPass_group (bands : list Band) (g : selection) :
  group (bandPass stack horiz cx cy r bands g)
  = g ++ bandRects stack horiz cx cy r bands.
Proof.
  unfold bandPass, bandRects, bandPass. rewrite fold_bandStep_group.
  reflexivity.
Qed.

(** Bands at or below the threshold leave no trace in a pass. *)
Lemma fold_bandStep_filter (bands : list Band) : forall st : Pass,
  fold_left (bandStep stack horiz cx cy r) bands st
  = fold_left (bandStep stack horiz cx cy r) (filter aboveThreshold bands) st.
Proof.
  induction bands as [|b bands IH]; intros st; cbn [fold_left filter].
  - reflexivity.
  - unfold aboveThreshold at 1.
    destruct (Rgt_dec (prop b) 0.001) as [H | H]; cbn [fold_left].
    + apply IH.
    + rewrite bandStep_skip by lra. apply IH.
Qed.

(** On bands above the threshold the source and the specification's
    wording agree. *)
Lemma fold_bandStep_spec (bands : list Band) : forall st : Pass,
  fold_left (bandStep stack horiz cx cy r) (filter aboveThreshold bands) st
  = fold_left (bandStepSpec stack horiz cx cy r)
              (filter aboveThreshold bands) st.
Proof.
  induction bands as [|b bands IH]; intros st; cbn [fold_left filter].
  - reflexivity.
  - destruct (aboveThreshold b) eqn:E; cbn [fold_left]; [|apply IH].
    replace (bandStepSpec stack horiz cx cy r st b)
      with (bandStep stack horiz cx cy r st b); [apply IH|].
    unfold aboveThreshold in E. unfold bandStep, bandStepSpec.
    destruct (Rgt_dec (prop b) 0.001); [reflexivity | discriminate].
Qed.

End BandPass.

(** ** Passes on particular stacks *)

Section Stacks.

Variables (stack : Stack) (horiz : bool) (cx cy r : R).






End Stacks.

Lemma drawNode_shape (svg : selection) (cx cy r : R) (clipId : string)
      (bands : Bands) (orientation baseColor : option string) :
  drawNode svg cx cy r clipId (Some bands) orientation baseColor
  = let horiz := match orientation with
                 | Some o => String.eqb o "horizontal"
                 | None => false
                 end in
    (svg ++ [ clipGroup clipId
                (rect (cx - r) (cy - r) (r * 2) (r * 2) (orGray baseColor)
                 :: bandRects Primary horiz cx cy r (orEmpty (bottomUp bands))
                 ++ bandRects Secondary horiz cx cy r
                      (orEmpty (topDown bands)));
              outline cx cy r ],
     Normal).
Proof.
  unfold drawNode. cbn zeta. rewrite !bandPass_group.
  unfold append. rewrite <- !app_assoc. reflexivity.
Qed.

(** ** Nodes *)


(** Without a [bands] object the call throws, once the group and its base
    fill are in place. *)
Lemma drawNode_undefined_bands (svg : selection) (cx cy r : R)
      (clipId : string) (orientation baseColor : option string) :
  drawNode svg cx cy r clipId None orientation baseColor
  = (svg ++ [ clipGroup clipId
                [rect (cx - r) (cy - r) (r * 2) (r * 2) (orGray baseColor)] ],
     Throw "TypeError: Cannot read properties of undefined").
Proof. reflexivity. Qed.

(** In binary64 arithmetic too the proportions 0.3 and 0.7 add up to
    exactly 1. *)
#[warnings="-inexact-float"]
Lemma sum_03_07_binary64 : PrimFloat.add 0.3 0.7 = 1%float.
Proof. vm_compute. reflexivity. Qed.




(** C5, as stated, fails: a band of proportion 0.0005 is not added to
    the cumulative fraction, and the band of proportion 0.5 after it is
    drawn up to [areaToHeight 0.5 10], below 10, where the wording of the
    claim puts it at [areaToHeight 0.5005 10], at least 10. *)
Lemma subthreshold_band_does_not_shift :
  cumFrac (bandPass Primary false 0 0 10 [mkBand 0.0005 "a"] []) = 0
  /\ cumFrac (bandPassSpec Primary false 0 0 10 [mkBand 0.0005 "a"] [])
     = 0 + 0.0005
  /\ prev (bandPass Primary false 0 0 10
             [mkBand 0.0005 "a"; mkBand 0.5 "b"] []) < 10
  /\ 10 <= prev (bandPassSpec Primary false 0 0 10
                   [mkBand 0.0005 "a"; mkBand 0.5 "b"] [])
  /\ bandPass Primary false 0 0 10 [mkBand 0.0005 "a"; mkBand 0.5 "b"] []
     <> bandPassSpec Primary false 0 0 10
          [mkBand 0.0005 "a"; mkBand 0.5 "b"] [].
Proof.
  assert (Hcode : prev (bandPass Primary false 0 0 10
                          [mkBand 0.0005 "a"; mkBand 0.5 "b"] []) < 10).
  { unfold bandPass. cbn [fold_left].
    rewrite (bandStep_skip _ _ _ _ _ (mkPass 0 0 [])) by (cbn [prop]; lra).
    rewrite bandStep_count by (cbn [prop]; lra).
    cbn [prev cumFrac prop].
    replace (0 + 0.5) with 0.5 by lra. rewrite Rmin_left by lra.
    apply areaToHeight_half. lra. }
  assert (Hspec : 10 <= prev (bandPassSpec Primary false 0 0 10
                               [mkBand 0.0005 "a"; mkBand 0.5 "b"] [])).
  { unfold bandPassSpec, bandStepSpec. cbn [fold_left prev cumFrac prop].
    rewrite Rmin_left by lra.
    apply areaToHeight_above_half; lra. }
  split; [|split; [|split; [|split]]].
  - unfold bandPass. cbn [fold_left].
    rewrite bandStep_skip by (cbn [prop]; lra). reflexivity.
  - reflexivity.
  - exact Hcode.
  - exact Hspec.
  - intros E. rewrite E in Hcode. lra.
Qed.

(** C5, amended. A band whose proportion is above 0.001 adds it to the
    cumulative fraction and moves the extent to
    [areaToHeight (min cumFrac 1) r], and only its rectangle is left out
    when it is not thicker than 0.5; a band whose proportion is not
    above 0.001 changes nothing at all, so that a pass is the pass over
    the bands above the threshold, on which the source and the wording
    of the specification agree. *)
Theorem bandStep_threshold (stack : Stack) (horiz : bool) (cx cy r : R)
        (st : Pass) (band : Band) :
  (prop band > 0.001 ->
   let cum := cumFrac st + prop band in
   let extent := areaToHeight (Rmin cum 1) r in
   bandStep stack horiz cx cy r st band
   = mkPass cum extent
       (if Rgt_dec (extent - prev st) 0.5
        then group st
             ++ [bandRect stack horiz cx cy r (prev st) extent (fill band)]
        else group st))
  /\ (prop band <= 0.001 -> bandStep stack horiz cx cy r st band = st)
  /\ (forall (bands : list Band) (g : selection),
         bandPass stack horiz cx cy r bands g
         = bandPass stack horiz cx cy r (filter aboveThreshold bands) g
         /\ bandPass stack horiz cx cy r bands g
            = bandPassSpec stack horiz cx cy r
                (filter aboveThreshold bands) g).
Proof.
  split; [|split].
  - intros Hp cum extent. apply bandStep_count. exact Hp.
  - apply bandStep_skip.
  - intros bands g. unfold bandPass, bandPassSpec.
    rewrite <- fold_bandStep_spec, <- fold_bandStep_filter. split; reflexivity.
Qed.

Lemma bandStep_threshold_witness :
  bandStep Primary false 0 0 10 (mkPass 0.2 3 []) (mkBand 0.0005 "a")
  = mkPass 0.2 3 []
  /\ cumFrac (bandStep Primary false 0 0 10 (mkPass 0.2 3 []) (mkBand 0.5 "b"))
     = 0.2 + 0.5.
Proof.
  destruct (bandStep_threshold Primary false 0 0 10 (mkPass 0.2 3 [])
              (mkBand 0.0005 "a")) as (_ & Hskip & _).
  destruct (bandStep_threshold Primary false 0 0 10 (mkPass 0.2 3 [])
              (mkBand 0.5 "b")) as (Hcount & _ & _).
  split.
  - apply Hskip. cbn [prop]. lra.
  - rewrite Hcount by (cbn [prop]; lra). reflexivity.
Defined.

(** ** Inputs outside the preconditions *)

Section Degenerate.

Import SpecFloat FloatOps FloatAxioms.









End Degenerate.





(** * Further properties *)

(** ** More on edges *)

(** X12. [drawEdge] only appends: what was drawn before stays in front,
    unchanged.  An edge of strength 0 adds nothing; any other edge adds
    its main line and, if it is blocked, the bar after it. *)
Theorem drawEdge_appends (svg : selection) (edge : Edge) (nodeRadius : R) :
  drawEdge svg edge nodeRadius = svg ++ drawEdge [] edge nodeRadius
  /\ (strength edge = 0 -> drawEdge [] edge nodeRadius = [])
  /\ (strength edge <> 0 ->
      drawEdge [] edge nodeRadius
      = mainLine edge (edgeLine edge nodeRadius)
        :: (if blocked edge
            then [blockedBar (edgeLine edge nodeRadius)] else [])).
Proof.
  unfold drawEdge.
  destruct (Req_dec_T (strength edge) 0) as [E | E].
  - split; [rewrite app_nil_r; reflexivity|].
    split; [reflexivity | contradiction].
  - split; [|split; [contradiction|]].
    + destruct (blocked edge); unfold append; cbn [List.app];
        rewrite <- ?app_assoc; reflexivity.
    + intros _. destruct (blocked edge); reflexivity.
Qed.

Lemma drawEdge_appends_witness :
  drawEdge [] (mkEdge (mkPoint 0 0) (mkPoint 100 0) 0 true) 10 = []
  /\ drawEdge [] (mkEdge (mkPoint 0 0) (mkPoint 100 0) 1 false) 10
     = [ mainLine (mkEdge (mkPoint 0 0) (mkPoint 100 0) 1 false)
           (edgeLine (mkEdge (mkPoint 0 0) (mkPoint 100 0) 1 false) 10) ].
Proof.
  split.
  - apply (drawEdge_appends []). reflexivity.
  - apply (drawEdge_appends []). cbn [strength]. lra.
Defined.

(** X15. [addArrowMarkers] appends the two markers [arrow-active] and
    [arrow-blocked], and the main line of every edge refers to one of
    them, whose fill is the stroke of the line. *)
Theorem arrow_markers_defined (defs : selection) (edge : Edge)
        (line : Segment) :
  addArrowMarkers defs
  = defs ++ [ arrowMarker "arrow-active" "#666";
              arrowMarker "arrow-blocked" "#ccc" ]
  /\ exists id fill : string,
       In (arrowMarker id fill) (addArrowMarkers defs)
       /\ attrOf "id" (arrowMarker id fill) = Some (Str id)
       /\ map (attrOf "fill") (childrenOf (arrowMarker id fill))
          = [Some (Str fill)]
       /\ attrOf "marker-end" (mainLine edge line)
          = Some (Str ("url(#" ++ id ++ ")")%string)
       /\ attrOf "stroke" (mainLine edge line) = Some (Str fill).
Proof.
  assert (E : addArrowMarkers defs
              = defs ++ [ arrowMarker "arrow-active" "#666";
                          arrowMarker "arrow-blocked" "#ccc" ]).
  { unfold addArrowMarkers, append. cbn [fold_left].
    rewrite <- app_assoc. reflexivity. }
  split; [exact E|]. rewrite E.
  destruct (blocked edge) eqn:B.
  - exists "arrow-blocked", "#ccc".
    split; [apply in_or_app; right; right; left; reflexivity|].
    unfold mainLine. rewrite B. repeat split; reflexivity.
  - exists "arrow-active", "#666".
    split; [apply in_or_app; right; left; reflexivity|].
    unfold mainLine. rewrite B. repeat split; reflexivity.
Qed.

(** ** More on nodes *)

Section Passes.

Variables (stack : Stack) (horiz : bool) (cx cy r : R).

Lemma countedProp_cons (b : Band) (bands : list Band) :
  countedProp (b :: bands)
  = if Rgt_dec (prop b) 0.001
    then prop b + countedProp bands else countedProp bands.
Proof.
  unfold countedProp. cbn [filter]. unfold aboveThreshold at 1.
  destruct (Rgt_dec (prop b) 0.001); reflexivity.
Qed.

Lemma countedProp_nonneg (bands : list Band) : 0 <= countedProp bands.
Proof.
  induction bands as [|b bands IH].
  - unfold countedProp. cbn. lra.
  - rewrite countedProp_cons. destruct (Rgt_dec (prop b) 0.001); lra.
Qed.

Lemma countedProp_app (bs1 bs2 : list Band) :
  countedProp (bs1 ++ bs2) = countedProp bs1 + countedProp bs2.
Proof.
  induction bs1 as [|b bs1 IH]; cbn [List.app].
  - unfold countedProp at 2. cbn. lra.
  - rewrite !countedProp_cons, IH.
    destruct (Rgt_dec (prop b) 0.001); lra.
Qed.

(** What a pass keeps true of its two loop variables. *)
Lemma fold_bandStep_totals (bands : list Band) : forall st : Pass,
  prev st = areaToHeight (Rmin (cumFrac st) 1) r ->
  cumFrac (fold_left (bandStep stack horiz cx cy r) bands st)
  = cumFrac st + countedProp bands
  /\ prev (fold_left (bandStep stack horiz cx cy r) bands st)
     = areaToHeight
         (Rmin (cumFrac (fold_left (bandStep stack horiz cx cy r) bands st))
               1) r.
Proof.
  induction bands as [|b bands IH]; intros st Hinv; cbn [fold_left].
  - split; [unfold countedProp; cbn; lra | exact Hinv].
  - rewrite countedProp_cons.
    destruct (Rgt_dec (prop b) 0.001) as [Hp | Hp].
    + rewrite bandStep_count by exact Hp.
      match goal with
      | |- context [fold_left _ bands ?s] =>
          destruct (IH s) as [IH1 IH2]; [reflexivity|]
      end.
      split; [rewrite IH1; cbn [cumFrac]; lra | exact IH2].
    + rewrite bandStep_skip by lra. apply IH. exact Hinv.
Qed.

Lemma bandPass_totals (bands : list Band) (g : selection) :
  cumFrac (bandPass stack horiz cx cy r bands g) = countedProp bands
  /\ prev (bandPass stack horiz cx cy r bands g)
     = areaToHeight (Rmin (countedProp bands) 1) r.
Proof.
  unfold bandPass.
  destruct (fold_bandStep_totals bands (mkPass 0 0 g)) as [H1 H2].
  - cbn [prev cumFrac]. rewrite Rmin_left by lra.
    symmetry. apply areaToHeight_low. lra.
  - cbn [cumFrac] in H1. rewrite H2, H1.
    replace (0 + countedProp bands) with (countedProp bands) by lra.
    split; reflexivity.
Qed.

Lemma fold_bandStep_saturated (bands : list Band) : forall st : Pass,
  1 <= cumFrac st -> prev st = 2 * r ->
  group (fold_left (bandStep stack horiz cx cy r) bands st) = group st.
Proof.
  induction bands as [|b bands IH]; intros st Hc Hp; cbn [fold_left].
  - reflexivity.
  - destruct (Rgt_dec (prop b) 0.001) as [Hb | Hb].
    + rewrite bandStep_count by exact Hb.
      rewrite Rmin_right by lra.
      rewrite (areaToHeight_high r 1) by lra.
      rewrite IH; cbn [cumFrac prev group]; try lra.
      destruct (Rgt_dec (2 * r - prev st) 0.5); [lra | reflexivity].
    + rewrite bandStep_skip by lra. apply IH; assumption.
Qed.

Lemma fold_bandStep_length (bands : list Band) : forall st : Pass,
  (List.length (group (fold_left (bandStep stack horiz cx cy r) bands st))
   <= List.length (group st)
      + List.length (filter aboveThreshold bands))%nat.
Proof.
  induction bands as [|b bands IH]; intros st; cbn [fold_left filter].
  - lia.
  - unfold aboveThreshold at 1.
    destruct (Rgt_dec (prop b) 0.001) as [Hb | Hb].
    + rewrite bandStep_count by exact Hb.
      etransitivity; [apply IH|]. cbn [group List.length].
      destruct (Rgt_dec _ 0.5); rewrite ?length_app; cbn [List.length]; lia.
    + rewrite bandStep_skip by lra. apply IH.
Qed.

End Passes.


(** X19. Once the cumulative fraction of a stack has reached 1, the
    bands that follow add no rectangle. *)
Theorem bandPass_saturates (stack : Stack) (horiz : bool) (cx cy r : R)
        (bs1 bs2 : list Band) (g : selection) :
  1 <= cumFrac (bandPass stack horiz cx cy r bs1 g) ->
  group (bandPass stack horiz cx cy r (bs1 ++ bs2) g)
  = group (bandPass stack horiz cx cy r bs1 g).
Proof.
  intros Hc. unfold bandPass in *. rewrite fold_left_app.
  apply fold_bandStep_saturated; [exact Hc|].
  destruct (bandPass_totals stack horiz cx cy r bs1 g) as [T1 T2].
  unfold bandPass in T1, T2. rewrite T2. rewrite T1 in Hc.
  rewrite Rmin_right by lra. apply areaToHeight_high. lra.
Qed.

Lemma bandPass_saturates_witness :
  group (bandPass Primary false 0 0 10
           ([mkBand 1 "red"] ++ [mkBand 0.5 "blue"]) [])
  = group (bandPass Primary false 0 0 10 [mkBand 1 "red"] []).
Proof.
  apply bandPass_saturates.
  destruct (bandPass_totals Primary false 0 0 10 [mkBand 1 "red"] [])
    as [T _].
  rewrite T, countedProp_cons. cbn [prop].
  destruct (Rgt_dec 1 0.001); [|lra].
  pose proof (countedProp_nonneg []). lra.
Defined.

(** X20. A stack never has more rectangles than it has bands with a
    proportion above 0.001. *)
Theorem bandRects_count (stack : Stack) (horiz : bool) (cx cy r : R)
        (bands : list Band) :
  (List.length (bandRects stack horiz cx cy r bands)
   <= List.length (filter aboveThreshold bands) <= List.length bands)%nat.
Proof.
  split.
  - unfold bandRects, bandPass.
    pose proof (fold_bandStep_length stack horiz cx cy r bands
                  (mkPass 0 0 [])) as H.
    cbn [group List.length] in H. lia.
  - apply filter_length_le.
Qed.

(** X21. The clip path made by [addCircleClip] is the one the group of
    [drawNode] refers to when both are given the same id, and for the
    same centre and radius its circle is the circle of the outline. *)
Theorem clip_matches_node (defs svg : selection) (id : string) (cx cy r : R)
        (bands : Bands) (orientation baseColor : option string) :
  exists clip circle g o : element,
    addCircleClip defs id cx cy r = defs ++ [clip]
    /\ childrenOf clip = [circle]
    /\ fst (drawNode svg cx cy r id (Some bands) orientation baseColor)
       = svg ++ [g; o]
    /\ (exists name : string,
           attrOf "id" clip = Some (Str name)
           /\ attrOf "clip-path" g
              = Some (Str ("url(#" ++ name ++ ")")%string))
    /\ attrOf "cx" circle = attrOf "cx" o
    /\ attrOf "cy" circle = attrOf "cy" o
    /\ attrOf "r" circle = attrOf "r" o.
Proof.
  do 4 eexists. split; [reflexivity|]. split; [reflexivity|].
  split; [rewrite drawNode_shape; reflexivity|].
  split; [exists id; split; reflexivity|].
  repeat split; reflexivity.
Qed.

(** X22. For [r > 0], a band with a proportion above 0.001 that does not
    take the cumulative fraction beyond 1 moves the running extent so
    that the area fraction between the old and the new extent is the
    proportion of the band, within [2e-8]. *)
Theorem band_area_is_proportion (stack : Stack) (horiz : bool) (cx cy r : R)
        (bs : list Band) (b : Band) (g : selection) :
  0 < r -> prop b > 0.001 -> countedProp bs + prop b <= 1 ->
  Rabs (areaFraction (prev (bandPass stack horiz cx cy r (bs ++ [b]) g)) r
        - areaFraction (prev (bandPass stack horiz cx cy r bs g)) r
        - prop b) <= 2e-8.
Proof.
  intros Hr Hp Hc.
  destruct (bandPass_totals stack horiz cx cy r (bs ++ [b]) g) as [_ ->].
  destruct (bandPass_totals stack horiz cx cy r bs g) as [_ ->].
  pose proof (countedProp_nonneg bs) as H0.
  rewrite countedProp_app.
  replace (countedProp [b]) with (prop b).
  2:{ rewrite countedProp_cons. destruct (Rgt_dec (prop b) 0.001); [|lra].
      unfold countedProp. cbn. lra. }
  rewrite !Rmin_left by lra.
  pose proof (roundtrip_error r Hr (countedProp bs + prop b) ltac:(lra))
    as E1.
  pose proof (roundtrip_error r Hr (countedProp bs) ltac:(lra)) as E2.
  pose proof roundtrip_bound as Hb.
  apply Rabs_le.
  assert (A1 : Rabs (areaFraction (areaToHeight (countedProp bs + prop b) r) r
                     - (countedProp bs + prop b)) <= 1e-8) by lra.
  assert (A2 : Rabs (areaFraction (areaToHeight (countedProp bs) r) r
                     - countedProp bs) <= 1e-8) by lra.
  unfold Rabs in A1, A2.
  destruct (Rcase_abs _) in A1; destruct (Rcase_abs _) in A2; lra.
Qed.

Lemma band_area_is_proportion_witness :
  Rabs (areaFraction
          (prev (bandPass Primary false 0 0 10
                   ([mkBand 0.3 "red"] ++ [mkBand 0.5 "blue"]) [])) 10
        - areaFraction
            (prev (bandPass Primary false 0 0 10 [mkBand 0.3 "red"] [])) 10
        - prop (mkBand 0.5 "blue")) <= 2e-8.
Proof.
  apply band_area_is_proportion.
  - lra.
  - cbn [prop]. lra.
  - rewrite countedProp_cons. cbn [prop].
    destruct (Rgt_dec 0.3 0.001); [|lra].
    unfold countedProp. cbn [filter fold_right]. lra.
Defined.
